(** * The recently-opened-folders search provider (extension.js)

    A shallow embedding of [SearchProvider]: the history-store read and the
    matching loop of [_getHistoryEntries], the promise-returning entry points
    [getInitialResultSet], [getSubsearchResultSet] and [getResultMetas], the
    [Gio.Cancellable] token they subscribe to, and the synchronous methods
    [filterResults] and [activateResult].

    Modelling conventions.
    - A record of the stored JSON blob is a [RawRecord]; a field that is
      absent reads as [None] (JavaScript [undefined]); a field that is
      present holds a string, as the editor writes them.
    - A JavaScript array is a list; [push] appends at the end, [shift]
      takes the head.
    - [this._historyEntries], the connection events and [console.error] are
      the mutable state, threaded explicitly as a [World].
    - A promise is its settlement state; [resolve] and [reject] act on a
      pending promise only. *)

From Stdlib Require Import String Ascii.
From stdpp Require Import base list strings.

Local Open Scope string_scope.
Local Open Scope list_scope.

(** ** JavaScript primitives used by the provider *)

Module Js.

(** [s.includes(term)]: [term] occurs in [s] as a contiguous substring. *)
Fixpoint includes (s term : string) : bool :=
  String.prefix term s ||
  match s with
  | EmptyString => false
  | String _ s' => includes s' term
  end.

(** Truthiness of a string: only the empty string is falsy. *)
Definition truthy_string (s : string) : bool :=
  match s with
  | EmptyString => false
  | String _ _ => true
  end.

(** Truthiness of a property read: [undefined] is falsy. *)
Definition truthy (v : option string) : bool :=
  match v with
  | None => false
  | Some s => truthy_string s
  end.

(** [v || d] where [v] is a property read and [d] a string. *)
Definition or_else (v : option string) (d : string) : string :=
  match v with
  | Some s => if truthy_string s then s else d
  | None => d
  end.

(** [v ?? d]: the nullish coalescing operator, which only replaces
    [undefined] (and [null]). *)
Definition nullish_else (v : option string) (d : string) : string :=
  match v with
  | Some s => s
  | None => d
  end.

(** [Error(message)] *)
Inductive Error : Type :=
  | MkError (message : string).

(** The completion of a call: a value, or a thrown exception. *)
Inductive Completion (A : Type) : Type :=
  | Normal (a : A)
  | Threw (e : Error).
Arguments Normal {A} a.
Arguments Threw {A} e.

(** The settlement state of a promise. *)
Inductive Promise (A : Type) : Type :=
  | Pending
  | Fulfilled (v : A)
  | Rejected (e : Error).
Arguments Pending {A}.
Arguments Fulfilled {A} v.
Arguments Rejected {A} e.

(** The resolving functions handed to a promise executor: the first call
    settles the promise, later calls are ignored. *)
Definition resolve {A} (v : A) (p : Promise A) : Promise A :=
  match p with
  | Pending => Fulfilled v
  | _ => p
  end.

Definition reject {A} (e : Error) (p : Promise A) : Promise A :=
  match p with
  | Pending => Rejected e
  | _ => p
  end.

End Js.

(** ** Data model *)

(** One element of [result.entries].  Only the three properties the
    provider reads are kept; a file or workspace record has no
    [folderUri]. *)
Record RawRecord : Type := mkRawRecord {
  folderUri : option string;
  label : option string;
  remoteAuthority : option string
}.

(** The object pushed on [this._historyEntries]. *)
Record HistoryEntry : Type := mkHistoryEntry {
  uri : string;
  title : string;
  remote : string;
  remoteType : string
}.

#[global] Instance RawRecord_eq_dec : EqDecision RawRecord.
Proof. solve_decision. Defined.

#[global] Instance HistoryEntry_eq_dec : EqDecision HistoryEntry.
Proof. solve_decision. Defined.

(** ** The matching loop of [_getHistoryEntries] (lines 220-243) *)

(** The [for (const term of searchTerms)] loop on a record whose
    [folderUri] is [u]: the value of [include] when the loop ends. *)
Fixpoint include_loop (entry_label : option string) (u : string)
    (searchTerms : list string) : bool :=
  match searchTerms with
  | [] => false
  | term :: rest =>
      if match entry_label with
         | Some l => Js.includes l term
         | None => false
         end
      then true
      else if Js.includes u term
      then true
      else include_loop entry_label u rest
  end.

(** The object literal pushed for an included record. *)
Definition normalize (entry : RawRecord) (u : string) : HistoryEntry :=
  {| uri := u;
     title := Js.or_else (label entry) u;
     remote := Js.or_else (remoteAuthority entry) "local";
     remoteType := if Js.truthy (remoteAuthority entry)
                   then "remote" else "local" |}.

(** One iteration of the [while] body on the shifted [entry]:
    the new contents of [this._historyEntries]. *)
Definition match_step (searchTerms : list string) (entry : RawRecord)
    (cache : list HistoryEntry) : list HistoryEntry :=
  match folderUri entry with
  | Some u =>
      if include_loop (label entry) u searchTerms
      then cache ++ [normalize entry u]
      else cache
  | None => cache
  end.

(** [while (result.entries.length > 0) { entry = result.entries.shift(); ... }] *)
Fixpoint match_loop (searchTerms : list string) (entries : list RawRecord)
    (cache : list HistoryEntry) : list HistoryEntry :=
  match entries with
  | [] => cache
  | entry :: rest =>
      match_loop searchTerms rest (match_step searchTerms entry cache)
  end.

(** ** The history store and the provider's state *)

(** What [JSON.parse(iter.get_value_at(0).to_string(0))] makes of a stored
    value: text that is not JSON, JSON without an [entries] array, or the
    history blob [{ entries: [...] }]. *)
Inductive RowValue : Type :=
  | NotJson
  | NoEntries
  | HistoryBlob (entries : list RawRecord).

(** The file [state.vscdb] as the provider meets it: whether the
    connection opens, whether the select command runs, and the rows the
    select returns. *)
Record Store : Type := mkStore {
  opens : bool;
  select_runs : bool;
  rows : list RowValue
}.

(** Calls made on the database connection. *)
Inductive DbEvent : Type :=
  | ConnOpen
  | ConnOpenFailed
  | Select
  | ConnClose.

#[global] Instance DbEvent_eq_dec : EqDecision DbEvent.
Proof. solve_decision. Defined.

Record World : Type := mkWorld {
  historyEntries : list HistoryEntry;   (* this._historyEntries *)
  store : Store;                        (* the file on disk *)
  dbEvents : list DbEvent;              (* connection calls, oldest first *)
  errorLog : list Js.Error              (* console.error, oldest first *)
}.

Definition set_historyEntries (l : list HistoryEntry) (w : World) : World :=
  {| historyEntries := l; store := store w;
     dbEvents := dbEvents w; errorLog := errorLog w |}.

Definition record_event (ev : DbEvent) (w : World) : World :=
  {| historyEntries := historyEntries w; store := store w;
     dbEvents := dbEvents w ++ [ev]; errorLog := errorLog w |}.

Definition console_error (e : Js.Error) (w : World) : World :=
  {| historyEntries := historyEntries w; store := store w;
     dbEvents := dbEvents w; errorLog := errorLog w ++ [e] |}.

(** Connections opened and not yet closed after a sequence of calls. *)
Fixpoint open_connections_from (n : nat) (evs : list DbEvent) : nat :=
  match evs with
  | [] => n
  | ConnOpen :: evs' => open_connections_from (S n) evs'
  | ConnClose :: evs' => open_connections_from (pred n) evs'
  | _ :: evs' => open_connections_from n evs'
  end.

Definition open_connections (evs : list DbEvent) : nat :=
  open_connections_from 0 evs.

Module Gda.

(** [new Gda.Connection({...}); conn.open()] *)
Definition open (w : World) : World * Js.Completion unit :=
  if opens (store w)
  then (record_event ConnOpen w, Js.Normal tt)
  else (record_event ConnOpenFailed w,
        Js.Threw (Js.MkError "Gda: cannot open connection")).

(** [conn.execute_select_command("SELECT value FROM ItemTable WHERE ...")] *)
Definition execute_select_command (w : World)
    : World * Js.Completion (list RowValue) :=
  if select_runs (store w)
  then (record_event Select w, Js.Normal (rows (store w)))
  else (record_event Select w,
        Js.Threw (Js.MkError "Gda: select command failed")).

(** [conn.close()] *)
Definition close (w : World) : World := record_event ConnClose w.

End Gda.

(** [JSON.parse]: the parsed object, seen through its [entries] property
    ([None] when the object has none). *)
Definition JSON_parse (v : RowValue)
    : Js.Completion (option (list RawRecord)) :=
  match v with
  | NotJson => Js.Threw (Js.MkError "SyntaxError")
  | NoEntries => Js.Normal None
  | HistoryBlob entries => Js.Normal (Some entries)
  end.

(** ** [_getHistoryEntries] (lines 189-246) *)

Definition _getHistoryEntries (searchTerms : list string) (w : World)
    : World * Js.Completion (list HistoryEntry) :=
  match Gda.open w with
  | (w, Js.Threw error) =>
      (* catch (error) { console.error(error); return []; } *)
      (console_error error w, Js.Normal [])
  | (w, Js.Normal _) =>
      (* this._historyEntries.length = 0 *)
      let w := set_historyEntries [] w in
      match Gda.execute_select_command w with
      | (w, Js.Threw e) => (w, Js.Threw e)
      | (w, Js.Normal dataModel) =>
          match dataModel with
          | [] =>
              (* if (!iter.move_next()) return []; *)
              (w, Js.Normal [])
          | value :: _ =>
              match JSON_parse value with
              | Js.Threw e => (w, Js.Threw e)
              | Js.Normal result =>
                  let w := Gda.close w in
                  match result with
                  | None =>
                      (* result.entries.length on undefined *)
                      (w, Js.Threw (Js.MkError "TypeError"))
                  | Some entries =>
                      let w :=
                        set_historyEntries
                          (match_loop searchTerms entries (historyEntries w))
                          w in
                      (* return this._historyEntries *)
                      (w, Js.Normal (historyEntries w))
                  end
              end
          end
      end
  end.

(** ** Cancellation tokens and pending operations *)

Module Gio.

(** A [Gio.Cancellable]: its flag and the ids of the connected handlers,
    in connection order. *)
Record Cancellable : Type := mkCancellable {
  is_cancelled : bool;
  handler_ids : list nat
}.

End Gio.

(** A promise being built by one of the provider's methods, the token it
    was given, and the closures [() => reject(Error(...))] this method
    connected to the token (handler id, error).  Handlers connected by
    other parties have no closure here: they do not touch this promise. *)
Record Op (A : Type) : Type := mkOp {
  promise : Js.Promise A;
  cancellable : Gio.Cancellable;
  closures : list (nat * Js.Error)
}.
Arguments mkOp {A} _ _ _.
Arguments promise {A} _.
Arguments cancellable {A} _.
Arguments closures {A} _.

Definition new_promise {A} (c : Gio.Cancellable) : Op A :=
  mkOp Js.Pending c [].

Fixpoint closure_of (id : nat) (cl : list (nat * Js.Error)) : option Js.Error :=
  match cl with
  | [] => None
  | (id', e) :: cl' => if Nat.eqb id id' then Some e else closure_of id cl'
  end.

(** [cancellable.connect(() => reject(e))]: on a token that is already
    cancelled the callback runs at once and the id is 0; otherwise the
    handler is connected under a fresh positive id. *)
Definition connect {A} (e : Js.Error) (op : Op A) : Op A * nat :=
  if Gio.is_cancelled (cancellable op)
  then (mkOp (Js.reject e (promise op)) (cancellable op) (closures op), 0)
  else
    let id := S (max_list (Gio.handler_ids (cancellable op))) in
    (mkOp (promise op)
          (Gio.mkCancellable false (Gio.handler_ids (cancellable op) ++ [id]))
          ((id, e) :: closures op),
     id).

(** [cancellable.disconnect(id)] *)
Definition disconnect {A} (id : nat) (op : Op A) : Op A :=
  mkOp (promise op)
       (Gio.mkCancellable
          (Gio.is_cancelled (cancellable op))
          (List.filter (fun i => negb (Nat.eqb i id))
                       (Gio.handler_ids (cancellable op))))
       (closures op).

(** Running the connected handlers, in connection order, on the promise. *)
Fixpoint run_handlers {A} (cl : list (nat * Js.Error)) (ids : list nat)
    (p : Js.Promise A) : Js.Promise A :=
  match ids with
  | [] => p
  | id :: ids' =>
      run_handlers cl ids'
        (match closure_of id cl with
         | Some e => Js.reject e p
         | None => p
         end)
  end.

(** The host calls [cancellable.cancel()]: the flag is set and the
    connected handlers run; a second call does nothing. *)
Definition cancel {A} (op : Op A) : Op A :=
  if Gio.is_cancelled (cancellable op)
  then op
  else mkOp (run_handlers (closures op)
                          (Gio.handler_ids (cancellable op)) (promise op))
            (Gio.mkCancellable true (Gio.handler_ids (cancellable op)))
            (closures op).

(** [if (!cancellable.is_cancelled()) resolve(v)] *)
Definition resolve_unless_cancelled {A} (v : A) (op : Op A) : Op A :=
  if Gio.is_cancelled (cancellable op)
  then op
  else mkOp (Js.resolve v (promise op)) (cancellable op) (closures op).

(** ** [getInitialResultSet] (lines 261-280)

    The executor runs synchronously: it connects the cancellation handler
    and calls [_getHistoryEntries], which has no [await] and so runs to
    completion.  The [then]/[catch] reaction runs later, as a job;
    [host_cancels] says whether the host cancels the token in between. *)
Definition getInitialResultSet (terms : list string)
    (token : Gio.Cancellable) (host_cancels : bool) (w : World)
    : World * Op (list string) :=
  let op := new_promise token in
  let '(op, cancelledId) := connect (Js.MkError "Search Cancelled") op in
  let '(w, settled) := _getHistoryEntries terms w in
  let op := if host_cancels then cancel op else op in
  match settled with
  | Js.Normal entries =>
      (* .then((entries) => { ... }) *)
      let identifiers := map uri entries in
      let op := disconnect cancelledId op in
      (w, resolve_unless_cancelled identifiers op)
  | Js.Threw _error =>
      (* .catch((_error) => { ... }) *)
      let w := console_error _error w in
      let op := disconnect cancelledId op in
      (w, resolve_unless_cancelled [] op)
  end.

(** ** [getSubsearchResultSet] (lines 300-305) *)
Definition getSubsearchResultSet (results : list string) (terms : list string)
    (token : Gio.Cancellable) (host_cancels : bool) (w : World)
    : World * Js.Completion (Op (list string)) :=
  if Gio.is_cancelled token
  then (w, Js.Threw (Js.MkError "Search Cancelled"))
  else
    let '(w, op) := getInitialResultSet terms token host_cancels w in
    (w, Js.Normal op).

(** ** [getResultMetas] (lines 142-182) *)

(** [new St.Icon({ icon_name, width, height })] *)
Record Icon : Type := mkIcon {
  icon_name : string;
  width : Z;
  height : Z
}.

Record ResultMeta : Type := mkResultMeta {
  id : string;
  name : string;
  description : string;
  clipboardText : string;
  createIcon : Z -> Icon
}.

(** [this._historyEntries.find((entry) => entry.uri === identifier)] *)
Definition find_entry (identifier : string) (cache : list HistoryEntry)
    : option HistoryEntry :=
  List.find (fun entry => String.eqb (uri entry) identifier) cache.

(** The [for (const identifier of results)] loop, pushing on
    [resultMetas]. *)
Fixpoint metas_loop (scaleFactor : Z) (cache : list HistoryEntry)
    (results : list string) (resultMetas : list ResultMeta)
    : list ResultMeta :=
  match results with
  | [] => resultMetas
  | identifier :: rest =>
      match find_entry identifier cache with
      | None => metas_loop scaleFactor cache rest resultMetas
      | Some historyEntry =>
          let meta :=
            {| id := identifier;
               name := title historyEntry;
               description := uri historyEntry;
               clipboardText := uri historyEntry;
               createIcon := fun size =>
                 mkIcon "dialog-information"
                        (size * scaleFactor) (size * scaleFactor) |} in
          metas_loop scaleFactor cache rest (resultMetas ++ [meta])
      end
  end.

Definition getResultMetas (scaleFactor : Z) (results : list string)
    (token : Gio.Cancellable) (w : World) : Op (list ResultMeta) :=
  let op := new_promise token in
  let '(op, cancelledId) := connect (Js.MkError "Operation Cancelled") op in
  let resultMetas := metas_loop scaleFactor (historyEntries w) results [] in
  let op := disconnect cancelledId op in
  resolve_unless_cancelled resultMetas op.

(** ** Specification-side definitions, for comparison with the code *)

(** Normalization as the specification words it:
    [title = label ?? folderUri], [remoteAuthority = remoteAuthority ?? "local"],
    [remoteType = remoteAuthority present ? "remote" : "local"]. *)
Definition spec_normalize (entry : RawRecord) (u : string) : HistoryEntry :=
  {| uri := u;
     title := Js.nullish_else (label entry) u;
     remote := Js.nullish_else (remoteAuthority entry) "local";
     remoteType := match remoteAuthority entry with
                   | Some _ => "remote"
                   | None => "local"
                   end |}.

(** All folder records of a record list, each normalized, in order: what
    the specification expects of the matching step on an empty term set. *)
Definition all_folder_entries (R : list RawRecord) : list HistoryEntry :=
  omap (fun entry => normalize entry <$> folderUri entry) R.

(** ** Auxiliary definitions for the statements *)

(** The entry a record contributes to the cache, if any. *)
Definition matched (searchTerms : list string) (entry : RawRecord)
    : option HistoryEntry :=
  match folderUri entry with
  | Some u =>
      if include_loop (label entry) u searchTerms
      then Some (normalize entry u)
      else None
  | None => None
  end.

(** [h] is the normalization of the folder record [r]. *)
Definition normalized_from (r : RawRecord) (h : HistoryEntry) : Prop :=
  folderUri r = Some (uri h) /\ h = normalize r (uri h).

(** A store whose connection opens, whose select runs and whose first row
    is the history blob with records [R]. *)
Definition readable_store (R : list RawRecord) (more : list RowValue) : Store :=
  mkStore true true (HistoryBlob R :: more).

(** The records a search finds in a store whose connection opens: those of
    the first row when the select runs and the row is the history blob,
    none otherwise. *)
Definition records_read (st : Store) : list RawRecord :=
  if select_runs st
  then match rows st with
       | HistoryBlob R :: _ => R
       | _ => []
       end
  else [].

(** Sample data for the worked examples. *)
Definition sample_token : Gio.Cancellable := Gio.mkCancellable false [].
Definition cancelled_token : Gio.Cancellable := Gio.mkCancellable true [].

Definition folder (u : string) (l : option string) : RawRecord :=
  mkRawRecord (Some u) l None.

Definition fresh_world (st : Store) : World := mkWorld [] st [] [].

(** The file on disk changes between two calls. *)
Definition set_store (st : Store) (w : World) : World :=
  {| historyEntries := historyEntries w; store := st;
     dbEvents := dbEvents w; errorLog := errorLog w |}.

(** The [ResultMeta] one requested identifier contributes, if any. *)
Definition meta_of (scaleFactor : Z) (cache : list HistoryEntry)
    (identifier : string) : option ResultMeta :=
  match find_entry identifier cache with
  | None => None
  | Some historyEntry =>
      Some {| id := identifier;
              name := title historyEntry;
              description := uri historyEntry;
              clipboardText := uri historyEntry;
              createIcon := fun size =>
                mkIcon "dialog-information"
                       (size * scaleFactor) (size * scaleFactor) |}
  end.

(** The folder URIs of the records the terms match, in store order. *)
Definition matched_uris (searchTerms : list string) (R : list RawRecord)
    : list string :=
  omap (fun entry => uri <$> matched searchTerms entry) R.

(** ** The remaining methods of [SearchProvider] *)

Module JsArray.

(** The clamping of a [slice] bound: a negative bound counts from the
    end of the array, and every bound is brought into [0 .. len]. *)
Definition relative_index (len : nat) (k : Z) : nat :=
  if (k <? 0)%Z
  then Z.to_nat (Z.max (Z.of_nat len + k) 0)
  else Nat.min (Z.to_nat k) len.

(** [arr.slice(start, end)] for integer bounds. *)
Definition slice {A} (l : list A) (start end_ : Z) : list A :=
  let k := relative_index (length l) start in
  let final := relative_index (length l) end_ in
  take (final - k) (drop k l).

End JsArray.

(** [filterResults] (lines 319-325); [maxResults] is an integer, of
    either sign. *)
Definition filterResults (results : list string) (maxResults : Z)
    : list string :=
  if (Z.of_nat (length results) <=? maxResults)%Z
  then results
  else JsArray.slice results 0 maxResults.

(** [activateResult] (lines 92-95), on the list of command lines handed
    to [GLib.spawn_command_line_async], oldest first. *)
Definition activateResult (result : string) (terms : list string)
    (spawned : list string) : list string :=
  spawned ++ [String.append "code --folder-uri " result].

(** ** Auxiliary definitions for the further properties *)

(** [t] occurs in [s] as a contiguous substring. *)
Definition occurs_in (t s : string) : Prop :=
  exists pre post, s = String.append pre (String.append t post).

(** A term hits a record: it occurs in the label, when there is one, or
    in the folder URI. *)
Definition term_hits (entry_label : option string) (u : string)
    (term : string) : Prop :=
  (exists l, entry_label = Some l /\ occurs_in term l) \/ occurs_in term u.

(** The connection calls of one kind in a sequence of calls. *)
Definition count_event (ev : DbEvent) (evs : list DbEvent) : nat :=
  length (filter (fun e => e = ev) evs).

(** A store the read gets nothing from: the connection does not open,
    the select fails, or its first row is missing or is not the history
    blob. *)
Definition unreadable (st : Store) : Prop :=
  opens st = false \/ select_runs st = false \/
  match rows st with
  | HistoryBlob _ :: _ => False
  | _ => True
  end.

(** What every entry the matching loop pushes satisfies: [remote] is
    never empty, [remoteType] is one of the two literals, a local entry
    has "local" as its remote, and the title is empty only when the URI
    is. *)
Definition entry_ok (h : HistoryEntry) : Prop :=
  remote h <> "" /\
  (remoteType h = "remote" \/ remoteType h = "local") /\
  (remoteType h = "local" -> remote h = "local") /\
  (title h = "" -> uri h = "").

(** The connection calls one search may add. *)
Definition calls_of_one_read (st : Store) (evs : list DbEvent) : Prop :=
  if opens st
  then evs = [ConnOpen; Select] \/ evs = [ConnOpen; Select; ConnClose]
  else evs = [ConnOpenFailed].

(** ** The matching loop *)

Lemma match_step_matched T entry cache :
  match_step T entry cache = cache ++ option_list (matched T entry).
Proof.
  unfold match_step, matched.
  destruct (folderUri entry) as [u|]; simpl.
  - destruct (include_loop (label entry) u T); simpl; [done|].
    by rewrite app_nil_r.
  - by rewrite app_nil_r.
Qed.

Lemma match_loop_omap T R : forall cache,
  match_loop T R cache = cache ++ omap (matched T) R.
Proof.
  induction R as [|entry R IH]; intros cache; simpl.
  - by rewrite app_nil_r.
  - rewrite IH, match_step_matched, <- app_assoc. f_equal.
    by destruct (matched T entry).
Qed.

Lemma matched_uri T entry h :
  matched T entry = Some h -> folderUri entry = Some (uri h).
Proof.
  unfold matched. destruct (folderUri entry) as [u|]; [|done].
  destruct (include_loop (label entry) u T); [|done].
  by intros [= <-].
Qed.

Lemma matched_normalize T entry h :
  matched T entry = Some h -> h = normalize entry (uri h).
Proof.
  unfold matched. destruct (folderUri entry) as [u|]; [|done].
  destruct (include_loop (label entry) u T); [|done].
  by intros [= <-].
Qed.

Lemma omap_matched_sublist T R :
  exists R', sublist R' R /\ Forall2 normalized_from R' (omap (matched T) R).
Proof.
  induction R as [|entry R (R' & Hsub & Hall)]; simpl.
  - exists []. split; constructor.
  - destruct (matched T entry) as [h|] eqn:Hm.
    + exists (entry :: R'). split; [by constructor|].
      constructor; [|done].
      split; [by eapply matched_uri | by eapply matched_normalize].
    + exists R'. split; [by constructor | done].
Qed.

Lemma matched_no_terms entry : matched [] entry = None.
Proof. unfold matched. by destruct (folderUri entry). Qed.

(** ** The history-store read *)

Lemma _getHistoryEntries_readable T R more cache evs log :
  _getHistoryEntries T (mkWorld cache (readable_store R more) evs log)
  = (mkWorld (omap (matched T) R) (readable_store R more)
             (evs ++ [ConnOpen; Select; ConnClose]) log,
     Js.Normal (omap (matched T) R)).
Proof.
  unfold _getHistoryEntries, Gda.open, Gda.execute_select_command; simpl.
  rewrite match_loop_omap; simpl.
  unfold Gda.close, record_event, set_historyEntries; simpl.
  by rewrite <- !app_assoc.
Qed.

(** C1 (as amended). With an empty term list the [for] loop over the terms
    never runs, [include] stays [false], and the matching loop pushes
    nothing: whatever the records, the cache it was given is returned
    as it was, so a search from the emptied cache yields no entry. *)
Theorem C1_empty_terms_match_nothing (R : list RawRecord) :
  (forall cache, match_loop [] R cache = cache) /\
  match_loop [] R [] = [].
Proof.
  assert (H : forall cache, match_loop [] R cache = cache).
  { intros cache. rewrite match_loop_omap.
    replace (omap (matched []) R) with (@nil HistoryEntry);
      [by rewrite app_nil_r|].
    induction R as [|entry R IH]; simpl; [done|].
    by rewrite matched_no_terms. }
  split; [exact H | apply H].
Qed.

(** C1 (as stated) fails: one folder record and no term.  The
    specification expects the record back, normalized; the loop returns
    nothing. *)
Lemma C1_empty_terms_counterexample :
  all_folder_entries [folder "/home/u/proj" (Some "Proj")]
    = [mkHistoryEntry "/home/u/proj" "Proj" "local" "local"] /\
  match_loop [] [folder "/home/u/proj" (Some "Proj")] [] = [] /\
  match_loop [] [folder "/home/u/proj" (Some "Proj")] []
    <> all_folder_entries [folder "/home/u/proj" (Some "Proj")].
Proof. by vm_compute. Qed.

(** C8. For every record list and term list, the entries the matching
    loop produces from an empty cache are, position by position, the
    normalizations of a subsequence of the records, all of them folder
    records, in their original order.  On a store holding the history
    blob the read completes normally with exactly these entries, whatever
    non-folder records the blob contains, and logs no error. *)
Theorem C8_matches_are_ordered_folder_subsequence
    (R : list RawRecord) (T : list string)
    (more : list RowValue) (cache : list HistoryEntry)
    (evs : list DbEvent) (log : list Js.Error) :
  (exists R', sublist R' R /\
     Forall (fun r => is_Some (folderUri r)) R' /\
     Forall2 normalized_from R' (match_loop T R [])) /\
  (let out := _getHistoryEntries T (mkWorld cache (readable_store R more) evs log) in
   snd out = Js.Normal (match_loop T R []) /\
   historyEntries (fst out) = match_loop T R [] /\
   errorLog (fst out) = log).
Proof.
  rewrite _getHistoryEntries_readable, match_loop_omap; simpl.
  split; [|done].
  destruct (omap_matched_sublist T R) as (R' & Hsub & Hall).
  exists R'. split; [done|]. split; [|done].
  clear Hsub. induction Hall as [|r h ? ? [Hu _] _ IH]; constructor; [|done].
  by rewrite Hu.
Qed.

(** ** Normalization *)

Lemma or_else_spec (v : option string) (d : string) :
  Js.or_else v d =
  match v with
  | Some s => if decide (s = "") then d else s
  | None => d
  end.
Proof. destruct v as [[|a s]|]; simpl; done. Qed.

Lemma truthy_spec (v : option string) :
  Js.truthy v = true <-> exists s, v = Some s /\ s <> "".
Proof.
  destruct v as [[|a s]|]; simpl.
  - split; [done|]. intros (s & [= <-] & Hs). done.
  - split; [|done]. intros _. by exists (String a s).
  - split; [done|]. intros (s & [=] & _).
Qed.

(** C6 (as amended). For every record that carries a [folderUri] and is
    matched by the terms, the loop appends exactly one entry, with
    [uri = folderUri]; [title] is the label when a label is present and
    not the empty string, and [folderUri] otherwise; [remote] is the remote
    authority when it is present and not the empty string, and "local"
    otherwise; [remoteType] is "remote" exactly when a remote authority is
    present and not the empty string, and "local" otherwise.  In
    particular a record with no remote authority gets "local" twice. *)
Theorem C6_normalization_uses_truthiness
    (T : list string) (entry : RawRecord) (u : string)
    (cache : list HistoryEntry)
    (Hfolder : folderUri entry = Some u)
    (Hmatch : include_loop (label entry) u T = true) :
  exists h,
    match_step T entry cache = cache ++ [h] /\
    uri h = u /\
    title h = match label entry with
              | Some l => if decide (l = "") then u else l
              | None => u
              end /\
    remote h = match remoteAuthority entry with
               | Some a => if decide (a = "") then "local" else a
               | None => "local"
               end /\
    (remoteType h = "remote" <->
       exists a, remoteAuthority entry = Some a /\ a <> "") /\
    (remoteType h = "local" <->
       ~ exists a, remoteAuthority entry = Some a /\ a <> "") /\
    (remoteAuthority entry = None ->
       remote h = "local" /\ remoteType h = "local").
Proof.
  exists (normalize entry u).
  unfold match_step. rewrite Hfolder, Hmatch.
  split; [done|]. split; [done|].
  split; [apply or_else_spec|]. split; [apply or_else_spec|].
  pose proof (truthy_spec (remoteAuthority entry)) as Ht.
  simpl. destruct (Js.truthy (remoteAuthority entry)) eqn:E.
  - split; [split; [intros _; by apply Ht | done]|].
    split; [split; [done | intros Hn; destruct Hn; by apply Ht]|].
    intros Hnone. rewrite Hnone in E. done.
  - assert (Hno : ~ exists a, remoteAuthority entry = Some a /\ a <> "").
    { intros Hex. apply Ht in Hex. done. }
    split; [split; [done | intros Hex; by destruct Hno]|].
    split; [done|].
    intros Hnone. by rewrite Hnone.
Qed.

Lemma C6_normalization_witness :
  folderUri (mkRawRecord (Some "/home/u/proj") (Some "Proj") (Some "ssh-remote+box"))
    = Some "/home/u/proj" /\
  include_loop (Some "Proj") "/home/u/proj" ["proj"] = true /\
  exists h,
    match_step ["proj"] (mkRawRecord (Some "/home/u/proj") (Some "Proj") (Some "ssh-remote+box")) []
      = [] ++ [h] /\
    uri h = "/home/u/proj" /\
    title h = "Proj" /\
    remote h = "ssh-remote+box" /\
    (remoteType h = "remote" <->
       exists a, Some "ssh-remote+box" = Some a /\ a <> "") /\
    (remoteType h = "local" <->
       ~ exists a, Some "ssh-remote+box" = Some a /\ a <> "") /\
    (Some "ssh-remote+box" = None ->
       remote h = "local" /\ remoteType h = "local").
Proof.
  split; [reflexivity|]. split; [reflexivity|].
  apply (C6_normalization_uses_truthiness ["proj"]
           (mkRawRecord (Some "/home/u/proj") (Some "Proj") (Some "ssh-remote+box"))
           "/home/u/proj" []); reflexivity.
Defined.

(** C6 (as stated) fails: a matched folder record whose label and remote
    authority are present but empty.  With [??] the title would be the
    empty label, the remote authority the empty string and the type
    "remote"; the code, using [||] and a truthiness test, yields the
    folder URI, "local" and "local". *)
Lemma C6_nullish_counterexample :
  match_loop ["proj"] [mkRawRecord (Some "/home/u/proj") (Some "") (Some "")] []
    = [mkHistoryEntry "/home/u/proj" "/home/u/proj" "local" "local"] /\
  spec_normalize (mkRawRecord (Some "/home/u/proj") (Some "") (Some "")) "/home/u/proj"
    = mkHistoryEntry "/home/u/proj" "" "" "remote" /\
  match_loop ["proj"] [mkRawRecord (Some "/home/u/proj") (Some "") (Some "")] []
    <> [spec_normalize (mkRawRecord (Some "/home/u/proj") (Some "") (Some "")) "/home/u/proj"].
Proof. by vm_compute. Qed.

(** ** Connection handling of the history-store read *)

(** C3 (the code at the failing input). The connection opens and the
    select returns no row: the read returns the empty list through the
    early [return []], and [conn.close()] was never called: one
    connection is left open. *)
Theorem C3_no_row_leaves_connection_open :
  let out := _getHistoryEntries ["proj"] (fresh_world (mkStore true true [])) in
  snd out = Js.Normal [] /\
  dbEvents (fst out) = [ConnOpen; Select] /\
  open_connections (dbEvents (fst out)) = 1.
Proof. by vm_compute. Qed.

(** The other exits: the connection is closed exactly when the first row
    parses as JSON; a failing select and an unparsable row leave it open
    as the empty result does. *)
Lemma connection_left_open_iff (T : list string) (st : Store)
    (cache : list HistoryEntry) (log : list Js.Error) :
  opens st = true ->
  open_connections
    (dbEvents (fst (_getHistoryEntries T (mkWorld cache st [] log)))) = 1
  <-> (select_runs st = false \/ rows st = [] \/
       exists more, rows st = NotJson :: more).
Proof.
  intros Hopen. destruct st as [o s r]. simpl in Hopen. subst o.
  unfold _getHistoryEntries, Gda.open, Gda.execute_select_command. simpl.
  destruct s; simpl.
  - destruct r as [|[| |R] more]; simpl.
    + split; [intros _; right; by left | done].
    + split; [intros _; right; right; by exists more | done].
    + split; [done|]. intros [|[|[? ?]]]; done.
    + split; [done|]. intros [|[|[? ?]]]; done.
  - split; [intros _; by left | done].
Qed.

Lemma connection_closed_on_success (T : list string) (R : list RawRecord)
    (more : list RowValue) (cache : list HistoryEntry) (log : list Js.Error) :
  open_connections
    (dbEvents (fst (_getHistoryEntries T
       (mkWorld cache (readable_store R more) [] log)))) = 0.
Proof. by rewrite _getHistoryEntries_readable. Qed.

(** ** The entry cache across searches *)

Lemma getInitialResultSet_cache T token hc w :
  historyEntries (fst (getInitialResultSet T token hc w))
  = historyEntries (fst (_getHistoryEntries T w)).
Proof.
  unfold getInitialResultSet.
  destruct (connect _ _) as [op cancelledId].
  destruct (_getHistoryEntries T w) as [w' [entries|e]]; done.
Qed.

Lemma getInitialResultSet_dbEvents T token hc w :
  dbEvents (fst (getInitialResultSet T token hc w))
  = dbEvents (fst (_getHistoryEntries T w)).
Proof.
  unfold getInitialResultSet.
  destruct (connect _ _) as [op cancelledId].
  destruct (_getHistoryEntries T w) as [w' [entries|e]]; done.
Qed.

Lemma _getHistoryEntries_cache_opens T w :
  opens (store w) = true ->
  historyEntries (fst (_getHistoryEntries T w))
  = match_loop T (records_read (store w)) [].
Proof.
  intros Hopen. destruct w as [cache [o s r] evs log].
  simpl in Hopen. subst o.
  unfold _getHistoryEntries, Gda.open, Gda.execute_select_command,
    records_read. simpl.
  destruct s; simpl; [|done].
  destruct r as [|[| |R] more]; done.
Qed.

Lemma _getHistoryEntries_cache_unavailable T w :
  opens (store w) = false ->
  historyEntries (fst (_getHistoryEntries T w)) = historyEntries w /\
  snd (_getHistoryEntries T w) = Js.Normal [].
Proof.
  intros Hopen. unfold _getHistoryEntries, Gda.open. by rewrite Hopen.
Qed.

(** C4 (as amended). Whenever the store connection opens, an initial
    search, and a subsearch whose token is not already cancelled, leave
    in the cache exactly the matches of that search over the records it
    read (none when the select fails, returns no row, or the row is not
    the history blob): the result does not depend on what the cache held
    before, so nothing of an earlier search survives. *)
Theorem C4_cache_replaced_when_store_opens
    (T : list string) (token : Gio.Cancellable) (hc : bool) (w : World)
    (Hopen : opens (store w) = true) :
  historyEntries (fst (getInitialResultSet T token hc w))
    = match_loop T (records_read (store w)) [] /\
  (forall results, Gio.is_cancelled token = false ->
     historyEntries (fst (getSubsearchResultSet results T token hc w))
       = match_loop T (records_read (store w)) []) /\
  (forall stale,
     historyEntries
       (fst (getInitialResultSet T token hc (set_historyEntries stale w)))
     = historyEntries (fst (getInitialResultSet T token hc w))).
Proof.
  split; [|split].
  - by rewrite getInitialResultSet_cache, _getHistoryEntries_cache_opens.
  - intros results Hnc. unfold getSubsearchResultSet. rewrite Hnc.
    pose proof (getInitialResultSet_cache T token hc w) as Hc.
    destruct (getInitialResultSet T token hc w) as [w' op]. simpl in *.
    by rewrite Hc, _getHistoryEntries_cache_opens.
  - intros stale.
    rewrite !getInitialResultSet_cache, !_getHistoryEntries_cache_opens; done.
Qed.

Lemma C4_cache_replaced_witness :
  opens (store (mkWorld [mkHistoryEntry "/old" "Old" "local" "local"]
                        (readable_store [folder "/home/u/proj" (Some "Proj")] [])
                        [] [])) = true /\
  historyEntries
    (fst (getInitialResultSet ["proj"] sample_token false
            (mkWorld [mkHistoryEntry "/old" "Old" "local" "local"]
                     (readable_store [folder "/home/u/proj" (Some "Proj")] [])
                     [] [])))
  = [mkHistoryEntry "/home/u/proj" "Proj" "local" "local"].
Proof.
  split; [reflexivity|].
  apply (C4_cache_replaced_when_store_opens ["proj"] sample_token false
           (mkWorld [mkHistoryEntry "/old" "Old" "local" "local"]
                    (readable_store [folder "/home/u/proj" (Some "Proj")] [])
                    [] [])).
  reflexivity.
Defined.

(** C4 (as stated) fails: a first search finds the project folder; the
    store then becomes unavailable and a second search, for other terms,
    resolves with the empty list, yet the cache still holds the first
    search's entry. *)
Lemma C4_stale_cache_counterexample :
  let w1 := fst (getInitialResultSet ["proj"] sample_token false
                   (fresh_world
                      (readable_store [folder "/home/u/proj" (Some "Proj")] []))) in
  let out := getInitialResultSet ["other"] sample_token false
               (set_store (mkStore false false []) w1) in
  promise (snd out) = Js.Fulfilled [] /\
  historyEntries (fst out)
    = [mkHistoryEntry "/home/u/proj" "Proj" "local" "local"] /\
  historyEntries (fst out) <> [].
Proof. by vm_compute. Qed.

(** ** Lookup in the cache *)

Lemma find_entry_first (i : string) (cache : list HistoryEntry) (h : HistoryEntry) :
  find_entry i cache = Some h ->
  exists pre post,
    cache = pre ++ h :: post /\ uri h = i /\
    Forall (fun e => uri e <> i) pre.
Proof.
  unfold find_entry.
  induction cache as [|e cache IH]; simpl; [done|].
  destruct (String.eqb (uri e) i) eqn:E.
  - intros [= <-]. exists [], cache.
    split; [done|]. split; [by apply String.eqb_eq | constructor].
  - intros Hf. destruct (IH Hf) as (pre & post & -> & Hu & Hpre).
    exists (e :: pre), post. split; [done|]. split; [done|].
    constructor; [|done]. by apply String.eqb_neq.
Qed.

Lemma find_entry_is_Some (i : string) (cache : list HistoryEntry) :
  is_Some (find_entry i cache) <-> i ∈ map uri cache.
Proof.
  unfold find_entry.
  induction cache as [|e cache IH]; simpl.
  - split; [by intros [? ?] | by intros ?%elem_of_nil].
  - destruct (String.eqb (uri e) i) eqn:E.
    + apply String.eqb_eq in E. subst i.
      split; [intros _; by left | by eexists].
    + apply String.eqb_neq in E. rewrite IH.
      split; [by right|]. by intros [?|?]%elem_of_cons.
Qed.

Lemma map_uri_omap_matched T R :
  map uri (omap (matched T) R) = matched_uris T R.
Proof.
  unfold matched_uris.
  induction R as [|entry R IH]; simpl; [done|].
  destruct (matched T entry) as [h|]; simpl; [by f_equal | done].
Qed.

(** C5 (as amended). After a search that reads the history blob, the
    cache holds one entry per matching folder record, in store order and
    without deduplication: its [uri] values are the folder URIs of the
    matching records, repeated as often as they match, so they are
    pairwise distinct exactly when those are.  A lookup by [uri] returns
    the first entry with that [uri]. *)
Theorem C5_cache_keeps_every_matching_record
    (T : list string) (R : list RawRecord) (more : list RowValue)
    (token : Gio.Cancellable) (hc : bool)
    (cache : list HistoryEntry) (evs : list DbEvent) (log : list Js.Error) :
  let cache' :=
    historyEntries
      (fst (getInitialResultSet T token hc
              (mkWorld cache (readable_store R more) evs log))) in
  map uri cache' = matched_uris T R /\
  length cache' = length (filter (fun r => is_Some (matched T r)) R) /\
  (NoDup (map uri cache') <-> NoDup (matched_uris T R)) /\
  (forall i h, find_entry i cache' = Some h ->
     exists pre post,
       cache' = pre ++ h :: post /\ uri h = i /\
       Forall (fun e => uri e <> i) pre).
Proof.
  simpl. rewrite getInitialResultSet_cache, _getHistoryEntries_readable. simpl.
  rewrite map_uri_omap_matched.
  split; [done|]. split; [|split; [done|]].
  - clear. induction R as [|entry R IH]; simpl; [done|].
    destruct (matched T entry) as [h|] eqn:Hm; simpl.
    + rewrite filter_cons_True by (rewrite Hm; eauto). simpl. f_equal. exact IH.
    + rewrite filter_cons_False by (rewrite Hm; by intros [? ?]). exact IH.
  - intros i h. apply find_entry_first.
Qed.

(** C5 (as stated) fails: the store lists the same folder twice, under an
    old and a new label.  Both records match, the cache holds two entries
    with the same [uri], and the lookup returns the first-seen one. *)
Lemma C5_duplicate_uri_counterexample :
  let out := getInitialResultSet ["proj"] sample_token false
               (fresh_world
                  (readable_store
                     [folder "/home/u/proj" (Some "Old");
                      folder "/home/u/proj" (Some "New")] [])) in
  historyEntries (fst out)
    = [mkHistoryEntry "/home/u/proj" "Old" "local" "local";
       mkHistoryEntry "/home/u/proj" "New" "local" "local"] /\
  ~ NoDup (map uri (historyEntries (fst out))) /\
  find_entry "/home/u/proj" (historyEntries (fst out))
    = Some (mkHistoryEntry "/home/u/proj" "Old" "local" "local").
Proof.
  split; [by vm_compute|]. split; [|by vm_compute].
  vm_compute. intros Hnd. apply NoDup_cons in Hnd as [Hnin _].
  apply Hnin. by left.
Qed.

(** ** Cancellation *)

Lemma run_handlers_app {A} cl ids1 ids2 (p : Js.Promise A) :
  run_handlers cl (ids1 ++ ids2) p = run_handlers cl ids2 (run_handlers cl ids1 p).
Proof. revert p. induction ids1 as [|i ids1 IH]; intros p; simpl; [done|by rewrite IH]. Qed.

(** Handlers of other parties leave the promise alone. *)
Lemma run_handlers_foreign {A} id e ids (p : Js.Promise A) :
  Forall (fun i => i <> id) ids ->
  run_handlers [(id, e)] ids p = p.
Proof.
  intros Hall. revert p.
  induction Hall as [|i ids Hi _ IH]; intros p; simpl; [done|].
  rewrite IH. by apply Nat.eqb_neq in Hi as ->.
Qed.

Lemma fresh_handler_id (ids : list nat) :
  Forall (fun i => i <> S (max_list ids)) ids.
Proof.
  apply Forall_forall. intros i Hi%max_list_elem_of_le. lia.
Qed.

(** A search on a token that is already cancelled: the handler runs at
    connection time and nothing later changes the rejection. *)
Lemma getInitialResultSet_already_cancelled T token hc w :
  Gio.is_cancelled token = true ->
  promise (snd (getInitialResultSet T token hc w))
  = Js.Rejected (Js.MkError "Search Cancelled").
Proof.
  intros Hc. unfold getInitialResultSet, connect, new_promise. simpl.
  rewrite Hc. simpl.
  destruct (_getHistoryEntries T w) as [w' [entries|e]];
    unfold cancel, disconnect, resolve_unless_cancelled; simpl;
    rewrite Hc; destruct hc; simpl; by rewrite ?Hc.
Qed.

(** A search whose token the host cancels before the reaction runs. *)
Lemma getInitialResultSet_cancelled_meanwhile T token w :
  Gio.is_cancelled token = false ->
  promise (snd (getInitialResultSet T token true w))
  = Js.Rejected (Js.MkError "Search Cancelled").
Proof.
  intros Hc. unfold getInitialResultSet, connect, new_promise. simpl.
  rewrite Hc. simpl.
  destruct (_getHistoryEntries T w) as [w' [entries|e]];
    unfold cancel, disconnect, resolve_unless_cancelled; simpl;
    rewrite run_handlers_app,
      (run_handlers_foreign _ _ (Gio.handler_ids token))
      by apply fresh_handler_id;
    simpl; by rewrite Nat.eqb_refl.
Qed.

(** A search that is not cancelled resolves, with the identifiers of the
    entries read or, when the read threw, with the empty list. *)
Lemma getInitialResultSet_not_cancelled T token w :
  Gio.is_cancelled token = false ->
  promise (snd (getInitialResultSet T token false w))
  = Js.Fulfilled match snd (_getHistoryEntries T w) with
                 | Js.Normal entries => map uri entries
                 | Js.Threw _ => []
                 end.
Proof.
  intros Hc. unfold getInitialResultSet, connect, new_promise. simpl.
  rewrite Hc. simpl.
  by destruct (_getHistoryEntries T w) as [w' [entries|e]].
Qed.

(** C2 (as amended). For every initial search whose token is cancelled
    before the search completes (already at call time, or by the host
    before the reaction to the history read runs), the returned promise
    is rejected with the error "Search Cancelled"; it is not resolved
    with an empty list. *)
Theorem C2_cancelled_initial_search_rejects
    (T : list string) (token : Gio.Cancellable) (hc : bool) (w : World)
    (Hcancel : Gio.is_cancelled token = true \/ hc = true) :
  promise (snd (getInitialResultSet T token hc w))
    = Js.Rejected (Js.MkError "Search Cancelled") /\
  promise (snd (getInitialResultSet T token hc w)) <> Js.Fulfilled [].
Proof.
  assert (H : promise (snd (getInitialResultSet T token hc w))
              = Js.Rejected (Js.MkError "Search Cancelled")).
  { destruct (Gio.is_cancelled token) eqn:Hc.
    - by apply getInitialResultSet_already_cancelled.
    - destruct Hcancel as [ ? | -> ]; [done|].
      by apply getInitialResultSet_cancelled_meanwhile. }
  split; [done|]. by rewrite H.
Qed.

Lemma C2_cancelled_initial_search_witness :
  (Gio.is_cancelled sample_token = true \/ true = true) /\
  promise (snd (getInitialResultSet ["proj"] sample_token true
                  (fresh_world
                     (readable_store [folder "/home/u/proj" (Some "Proj")] []))))
    = Js.Rejected (Js.MkError "Search Cancelled").
Proof.
  split; [right; reflexivity|].
  apply (C2_cancelled_initial_search_rejects ["proj"] sample_token true
           (fresh_world
              (readable_store [folder "/home/u/proj" (Some "Proj")] []))).
  right; reflexivity.
Defined.

(** C2 (as stated) fails: an initial search on a token that is already
    cancelled.  The promise is rejected, not resolved with []. *)
Lemma C2_cancellation_counterexample :
  let out := getInitialResultSet ["proj"] cancelled_token false
               (fresh_world
                  (readable_store [folder "/home/u/proj" (Some "Proj")] [])) in
  promise (snd out) = Js.Rejected (Js.MkError "Search Cancelled") /\
  promise (snd out) <> Js.Fulfilled [].
Proof. by vm_compute. Qed.

(** C7. A subsearch on a token that is already cancelled throws
    "Search Cancelled" at once and leaves the provider's state as it was:
    no connection call, no change of the cache, nothing logged.
    Otherwise it is the initial search on the same terms and token, and
    the previous result list plays no part in it. *)
Theorem C7_subsearch_cancelled_or_delegates
    (results : list string) (T : list string) (token : Gio.Cancellable)
    (hc : bool) (w : World) :
  (Gio.is_cancelled token = true ->
     getSubsearchResultSet results T token hc w
       = (w, Js.Threw (Js.MkError "Search Cancelled")) /\
     dbEvents (fst (getSubsearchResultSet results T token hc w)) = dbEvents w) /\
  (Gio.is_cancelled token = false ->
     getSubsearchResultSet results T token hc w
       = (fst (getInitialResultSet T token hc w),
          Js.Normal (snd (getInitialResultSet T token hc w))) /\
     forall results',
       getSubsearchResultSet results' T token hc w
       = getSubsearchResultSet results T token hc w).
Proof.
  unfold getSubsearchResultSet. split; intros ->.
  - done.
  - split; [|done]. by destruct (getInitialResultSet T token hc w).
Qed.

Lemma C7_subsearch_witness :
  (Gio.is_cancelled cancelled_token = true /\
   getSubsearchResultSet ["/home/u/proj"] ["proj"] cancelled_token false
     (fresh_world (readable_store [folder "/home/u/proj" (Some "Proj")] []))
   = (fresh_world (readable_store [folder "/home/u/proj" (Some "Proj")] []),
      Js.Threw (Js.MkError "Search Cancelled"))) /\
  (Gio.is_cancelled sample_token = false /\
   forall results',
     getSubsearchResultSet results' ["proj"] sample_token false
       (fresh_world (readable_store [folder "/home/u/proj" (Some "Proj")] []))
     = getSubsearchResultSet ["/home/u/proj"] ["proj"] sample_token false
         (fresh_world (readable_store [folder "/home/u/proj" (Some "Proj")] []))).
Proof.
  split; (split; [reflexivity|]).
  - exact (proj1 (proj1 (C7_subsearch_cancelled_or_delegates
             ["/home/u/proj"] ["proj"] cancelled_token false
             (fresh_world (readable_store [folder "/home/u/proj" (Some "Proj")] [])))
           eq_refl)).
  - exact (proj2 (proj2 (C7_subsearch_cancelled_or_delegates
             ["/home/u/proj"] ["proj"] sample_token false
             (fresh_world (readable_store [folder "/home/u/proj" (Some "Proj")] [])))
           eq_refl)).
Defined.

(** ** Metadata resolution *)

Lemma metas_loop_omap sf cache results : forall acc,
  metas_loop sf cache results acc = acc ++ omap (meta_of sf cache) results.
Proof.
  induction results as [|i results IH]; intros acc; simpl.
  - by rewrite app_nil_r.
  - unfold meta_of at 1. destruct (find_entry i cache) as [h|]; [|apply IH].
    by rewrite IH, <- app_assoc.
Qed.

Lemma getResultMetas_not_cancelled sf results token w :
  Gio.is_cancelled token = false ->
  promise (getResultMetas sf results token w)
  = Js.Fulfilled (omap (meta_of sf (historyEntries w)) results).
Proof.
  intros Hc. unfold getResultMetas, connect, new_promise. simpl.
  rewrite Hc. simpl. by rewrite metas_loop_omap.
Qed.

Lemma getResultMetas_cancelled sf results token w :
  Gio.is_cancelled token = true ->
  promise (getResultMetas sf results token w)
  = Js.Rejected (Js.MkError "Operation Cancelled").
Proof.
  intros Hc. unfold getResultMetas, connect, new_promise. simpl.
  rewrite Hc. unfold disconnect, resolve_unless_cancelled. simpl.
  by rewrite Hc.
Qed.

Lemma meta_of_Some sf cache i m :
  meta_of sf cache i = Some m ->
  id m = i /\
  exists h, find_entry i cache = Some h /\ uri h = i /\
            name m = title h /\ description m = i /\ clipboardText m = i.
Proof.
  unfold meta_of. destruct (find_entry i cache) as [h|] eqn:Hf; [|done].
  intros [= <-]. simpl. split; [done|]. exists h.
  destruct (find_entry_first _ _ _ Hf) as (_ & _ & _ & Hu & _).
  by rewrite Hu.
Qed.

Lemma meta_of_is_Some sf cache i :
  is_Some (meta_of sf cache i) <-> i ∈ map uri cache.
Proof.
  rewrite <- find_entry_is_Some. unfold meta_of.
  destruct (find_entry i cache); split; intros [? ?]; by eauto.
Qed.

Lemma omap_meta_ids sf cache results :
  map id (omap (meta_of sf cache) results)
  = filter (fun i => i ∈ map uri cache) results.
Proof.
  induction results as [|i results IH]; simpl; [done|].
  destruct (meta_of sf cache i) as [m|] eqn:Hm.
  - rewrite filter_cons_True by (apply (meta_of_is_Some sf); by rewrite Hm).
    simpl. f_equal; [|exact IH]. by apply meta_of_Some in Hm as [? _].
  - rewrite filter_cons_False; [exact IH|].
    intros Hin%(meta_of_is_Some sf). rewrite Hm in Hin. by destruct Hin.
Qed.

Lemma omap_meta_count sf cache results i :
  i ∈ map uri cache ->
  length (filter (fun m => id m = i) (omap (meta_of sf cache) results))
  = length (filter (fun j => j = i) results).
Proof.
  intros Hin. induction results as [|j results IH]; simpl; [done|].
  destruct (decide (j = i)) as [->|Hne].
  - rewrite (filter_cons_True (fun j => j = i)) by done.
    apply (meta_of_is_Some sf) in Hin as [m Hm]. rewrite Hm.
    rewrite filter_cons_True by (by apply meta_of_Some in Hm as [? _]).
    simpl. f_equal. exact IH.
  - rewrite (filter_cons_False (fun j => j = i)) by done.
    destruct (meta_of sf cache j) as [m|] eqn:Hm; [|exact IH].
    rewrite filter_cons_False; [exact IH|].
    apply meta_of_Some in Hm as [-> _]. done.
Qed.

Lemma omap_length_le {A B} (f : A -> option B) (l : list A) :
  length (omap f l) <= length l.
Proof.
  induction l as [|x l IH]; simpl; [done|].
  destruct (f x); simpl; [apply le_n_S | apply le_S]; exact IH.
Qed.

(** C9. With a token that is not cancelled, metadata resolution resolves
    with a list of metas whose identifiers are the requested identifiers
    that are in the cache, in request order, one meta per such request;
    requests absent from the cache are skipped without error.  The list
    is no longer than the request list, every meta's identifier is in
    the cache and was requested, and each meta is built from the cache
    entry found under its identifier. *)
Theorem C9_metas_are_cache_hits_in_order
    (scaleFactor : Z) (results : list string) (token : Gio.Cancellable)
    (w : World)
    (Hlive : Gio.is_cancelled token = false) :
  exists metas,
    promise (getResultMetas scaleFactor results token w) = Js.Fulfilled metas /\
    map id metas = filter (fun i => i ∈ map uri (historyEntries w)) results /\
    length metas <= length results /\
    Forall (fun m => id m ∈ map uri (historyEntries w) /\ id m ∈ results) metas /\
    Forall (fun m => exists h,
              find_entry (id m) (historyEntries w) = Some h /\
              name m = title h /\
              description m = id m /\
              clipboardText m = id m) metas.
Proof.
  exists (omap (meta_of scaleFactor (historyEntries w)) results).
  split; [by apply getResultMetas_not_cancelled|].
  split; [apply omap_meta_ids|].
  split; [apply omap_length_le|].
  split.
  - apply Forall_forall. intros m Hm.
    assert (Hid : id m ∈ map id (omap (meta_of scaleFactor (historyEntries w)) results))
      by (by apply list_elem_of_fmap_2).
    rewrite omap_meta_ids in Hid.
    apply list_elem_of_filter in Hid. done.
  - apply Forall_forall. intros m (i & Hi & Hm)%list_elem_of_omap.
    apply meta_of_Some in Hm as (Hid & h & Hf & _ & Hn & Hd & Hc).
    exists h. by rewrite Hid.
Qed.

Lemma C9_metas_witness :
  Gio.is_cancelled sample_token = false /\
  exists metas,
    promise (getResultMetas 1 ["/gone"; "/home/u/proj"] sample_token
               (mkWorld [mkHistoryEntry "/home/u/proj" "Proj" "local" "local"]
                        (readable_store [] []) [] []))
      = Js.Fulfilled metas /\
    map id metas = ["/home/u/proj"].
Proof.
  split; [reflexivity|].
  destruct (C9_metas_are_cache_hits_in_order 1 ["/gone"; "/home/u/proj"]
              sample_token
              (mkWorld [mkHistoryEntry "/home/u/proj" "Proj" "local" "local"]
                       (readable_store [] []) [] [])
              eq_refl) as (metas & Hp & Hids & _).
  exists metas. split; [exact Hp|]. rewrite Hids. reflexivity.
Defined.

(** C10. With a token that is not cancelled, an identifier that is in
    the cache gets as many metas as it has occurrences in the request
    list: repeated requests are not merged. *)
Theorem C10_repeated_identifiers_repeat_metas
    (scaleFactor : Z) (results : list string) (token : Gio.Cancellable)
    (w : World) (i : string)
    (Hlive : Gio.is_cancelled token = false)
    (Hcached : i ∈ map uri (historyEntries w)) :
  exists metas,
    promise (getResultMetas scaleFactor results token w) = Js.Fulfilled metas /\
    length (filter (fun m => id m = i) metas)
      = length (filter (fun j => j = i) results).
Proof.
  exists (omap (meta_of scaleFactor (historyEntries w)) results).
  split; [by apply getResultMetas_not_cancelled|].
  by apply omap_meta_count.
Qed.

Lemma C10_repeated_identifiers_witness :
  Gio.is_cancelled sample_token = false /\
  "/home/u/proj" ∈ map uri [mkHistoryEntry "/home/u/proj" "Proj" "local" "local"] /\
  exists metas,
    promise (getResultMetas 1 ["/home/u/proj"; "/gone"; "/home/u/proj"]
               sample_token
               (mkWorld [mkHistoryEntry "/home/u/proj" "Proj" "local" "local"]
                        (readable_store [] []) [] []))
      = Js.Fulfilled metas /\
    length (filter (fun m => id m = "/home/u/proj") metas) = 2.
Proof.
  split; [reflexivity|]. split; [simpl; left|].
  destruct (C10_repeated_identifiers_repeat_metas 1
              ["/home/u/proj"; "/gone"; "/home/u/proj"] sample_token
              (mkWorld [mkHistoryEntry "/home/u/proj" "Proj" "local" "local"]
                       (readable_store [] []) [] [])
              "/home/u/proj" eq_refl ltac:(simpl; left))
    as (metas & Hp & Hn).
  exists metas. split; [exact Hp|]. rewrite Hn. reflexivity.
Defined.

(** ** Truncation of a result list *)

Lemma slice_from_start {A} (l : list A) (e : Z) :
  JsArray.slice l 0 e = take (JsArray.relative_index (length l) e) l.
Proof.
  unfold JsArray.slice. simpl. by rewrite Nat.sub_0_r.
Qed.

Lemma filterResults_nonneg (results : list string) (maxResults : Z) :
  (0 <= maxResults)%Z ->
  filterResults results maxResults = take (Z.to_nat maxResults) results.
Proof.
  intros Hnonneg. unfold filterResults.
  destruct (Z.leb_spec (Z.of_nat (length results)) maxResults) as [Hle|Hgt].
  - rewrite take_ge; [done|lia].
  - rewrite slice_from_start. unfold JsArray.relative_index.
    destruct (Z.ltb_spec maxResults 0) as [?|_]; [lia|].
    f_equal. lia.
Qed.

(** X1. For a bound that is not negative, [filterResults] returns the
    first [maxResults] identifiers in their original order (all of them
    when there are no more than that), so the result has
    [min (length results) maxResults] elements. *)
Theorem X1_filterResults_keeps_first_n
    (results : list string) (maxResults : Z)
    (Hnonneg : (0 <= maxResults)%Z) :
  filterResults results maxResults = take (Z.to_nat maxResults) results /\
  length (filterResults results maxResults)
    = Nat.min (length results) (Z.to_nat maxResults).
Proof.
  split; [by apply filterResults_nonneg|].
  rewrite filterResults_nonneg, length_take by done. lia.
Qed.

Lemma X1_filterResults_witness :
  (0 <= 1)%Z /\
  filterResults ["/home/u/dev-a"; "/home/u/dev-b"] 1 = ["/home/u/dev-a"].
Proof.
  split; [lia|].
  apply (X1_filterResults_keeps_first_n ["/home/u/dev-a"; "/home/u/dev-b"] 1).
  lia.
Defined.

(** X2. Whatever the bound, [filterResults] returns a prefix of its
    input: it never reorders, never invents an identifier and never
    returns more than it was given. *)
Theorem X2_filterResults_is_prefix (results : list string) (maxResults : Z) :
  filterResults results maxResults `prefix_of` results /\
  length (filterResults results maxResults) <= length results.
Proof.
  assert (H : filterResults results maxResults `prefix_of` results).
  { unfold filterResults.
    destruct (Z.leb_spec (Z.of_nat (length results)) maxResults) as [Hle|Hgt].
    - done.
    - rewrite slice_from_start. apply prefix_take. }
  split; [exact H|]. by apply prefix_length.
Qed.

(** X3. For a bound that is not negative, truncating twice with the same
    bound is truncating once. *)
Theorem X3_filterResults_idempotent
    (results : list string) (maxResults : Z)
    (Hnonneg : (0 <= maxResults)%Z) :
  filterResults (filterResults results maxResults) maxResults
  = filterResults results maxResults.
Proof.
  unfold filterResults at 1.
  destruct (Z.leb_spec
              (Z.of_nat (length (filterResults results maxResults)))
              maxResults) as [_|Hgt]; [done|].
  rewrite filterResults_nonneg, length_take in Hgt by done. lia.
Qed.

Lemma X3_filterResults_idempotent_witness :
  (0 <= 1)%Z /\
  filterResults (filterResults ["/home/u/dev-a"; "/home/u/dev-b"] 1) 1
  = filterResults ["/home/u/dev-a"; "/home/u/dev-b"] 1.
Proof.
  split; [lia|].
  apply (X3_filterResults_idempotent ["/home/u/dev-a"; "/home/u/dev-b"] 1).
  lia.
Defined.

(** X4. For a negative bound the length test always fails and [slice]
    counts the bound from the end: [filterResults] drops the last
    [-maxResults] identifiers and keeps the others, so the result is
    empty only when the list has no more than [-maxResults] elements. *)
Theorem X4_filterResults_negative_bound
    (results : list string) (maxResults : Z)
    (Hneg : (maxResults < 0)%Z) :
  filterResults results maxResults
    = take (length results - Z.to_nat (- maxResults)) results /\
  length (filterResults results maxResults)
    = length results - Z.to_nat (- maxResults).
Proof.
  assert (H : filterResults results maxResults
              = take (length results - Z.to_nat (- maxResults)) results).
  { unfold filterResults.
    destruct (Z.leb_spec (Z.of_nat (length results)) maxResults) as [Hle|Hgt];
      [lia|].
    rewrite slice_from_start. unfold JsArray.relative_index.
    destruct (Z.ltb_spec maxResults 0) as [_|?]; [|lia].
    f_equal. lia. }
  split; [exact H|]. rewrite H, length_take. lia.
Qed.

Lemma X4_filterResults_negative_witness :
  (-1 < 0)%Z /\
  filterResults ["/a"; "/b"; "/c"] (-1) = ["/a"; "/b"].
Proof.
  split; [lia|].
  apply (X4_filterResults_negative_bound ["/a"; "/b"; "/c"] (-1)).
  lia.
Defined.

(** ** What the matching loop matches *)

Lemma string_app_cons (a : ascii) (s t : string) :
  String a s +:+ t = String a (s +:+ t).
Proof. reflexivity. Qed.

Lemma string_app_nil (t : string) : "" +:+ t = t.
Proof. reflexivity. Qed.

Lemma string_app_assoc (a b c : string) :
  (a +:+ b) +:+ c = a +:+ (b +:+ c).
Proof.
  induction a as [|x a IH]; [done|].
  rewrite !string_app_cons. by f_equal.
Qed.

Lemma prefix_occurs (t s : string) :
  String.prefix t s = true <-> exists post, s = t +:+ post.
Proof.
  revert s. induction t as [|a t IH]; intros s.
  - split; [intros _; by exists s | by destruct s].
  - destruct s as [|b s]; simpl.
    { split; [done|]. intros [post H]. by rewrite string_app_cons in H. }
    destruct (Ascii.ascii_dec a b) as [->|Hne].
    + rewrite IH. split; intros [post H]; exists post.
      * by rewrite string_app_cons, H.
      * rewrite string_app_cons in H. congruence.
    + split; [done|]. intros [post H].
      rewrite string_app_cons in H. congruence.
Qed.

Lemma includes_nil (t : string) :
  Js.includes "" t = String.prefix t "".
Proof. unfold Js.includes. apply orb_false_r. Qed.

Lemma includes_cons (a : ascii) (s t : string) :
  Js.includes (String a s) t = String.prefix t (String a s) || Js.includes s t.
Proof. reflexivity. Qed.

Lemma includes_occurs (s t : string) :
  Js.includes s t = true <-> occurs_in t s.
Proof.
  unfold occurs_in. induction s as [|a s IH].
  - rewrite includes_nil, prefix_occurs. split.
    + intros [post H]. by exists "", post.
    + intros ([|? ?] & post & H); [by exists post|].
      by rewrite string_app_cons in H.
  - rewrite includes_cons, orb_true_iff, prefix_occurs, IH. split.
    + intros [[post H]|(pre & post & H)].
      * by exists "", post.
      * exists (String a pre), post. by rewrite string_app_cons, H.
    + intros ([|b pre] & post & H).
      * left. by exists post.
      * right. exists pre, post. rewrite string_app_cons in H. congruence.
Qed.

Lemma occurs_in_trans (t t' s : string) :
  occurs_in t t' -> occurs_in t' s -> occurs_in t s.
Proof.
  intros (p & q & ->) (pre & post & ->).
  exists (pre +:+ p), (q +:+ post).
  by rewrite !string_app_assoc.
Qed.

Lemma occurs_in_empty (s : string) : occurs_in "" s.
Proof. by exists "", s. Qed.

Lemma include_loop_hits (entry_label : option string) (u : string)
    (T : list string) :
  include_loop entry_label u T = true
  <-> exists term, term ∈ T /\ term_hits entry_label u term.
Proof.
  unfold term_hits. induction T as [|term T IH]; simpl.
  - split; [done|]. by intros (? & ?%elem_of_nil & _).
  - destruct (match entry_label with
              | Some l => Js.includes l term
              | None => false
              end) eqn:El.
    { split; [intros _|done]. exists term. split; [by left|]. left.
      destruct entry_label as [l|]; [|done].
      exists l. split; [done|]. by apply includes_occurs. }
    destruct (Js.includes u term) eqn:Eu.
    { split; [intros _|done]. exists term. split; [by left|]. right.
      by apply includes_occurs. }
    rewrite IH. split.
    + intros (t & Hin & Hhit). exists t. split; [by right|done].
    + intros (t & Hin & Hhit). apply elem_of_cons in Hin as [->|Hin].
      * exfalso. destruct Hhit as [(l & -> & Ho)|Ho].
        -- apply includes_occurs in Ho. congruence.
        -- apply includes_occurs in Ho. congruence.
      * by exists t.
Qed.

Lemma matched_iff (T : list string) (entry : RawRecord) (h : HistoryEntry) :
  matched T entry = Some h
  <-> exists u, folderUri entry = Some u /\ h = normalize entry u /\
                exists term, term ∈ T /\ term_hits (label entry) u term.
Proof.
  unfold matched. destruct (folderUri entry) as [u|].
  - destruct (include_loop (label entry) u T) eqn:E.
    + apply include_loop_hits in E. split.
      * intros [= <-]. by exists u.
      * by intros (u' & [= <-] & -> & _).
    + split; [done|]. intros (u' & [= <-] & _ & Hhit).
      apply include_loop_hits in Hhit. congruence.
  - split; [done|]. by intros (? & ? & _).
Qed.

Lemma omap_sublist_mono {A B} (f g : A -> option B) (l : list A) :
  (forall x y, f x = Some y -> g x = Some y) ->
  sublist (omap f l) (omap g l).
Proof.
  intros Hfg. induction l as [|x l IH]; simpl; [constructor|].
  destruct (f x) as [y|] eqn:Ef.
  - rewrite (Hfg _ _ Ef). by constructor.
  - destruct (g x); [by constructor | done].
Qed.

(** X5. An entry is in the result of the matching loop exactly when it
    is the normalization of a record of the list that carries a
    [folderUri] and that some search term hits: the term occurs, as a
    contiguous and case-sensitive substring, in the record's label (when
    it has one) or in its [folderUri].  One hitting term is enough. *)
Theorem X5_match_is_substring_of_label_or_uri
    (T : list string) (R : list RawRecord) (h : HistoryEntry) :
  h ∈ match_loop T R []
  <-> exists entry u,
        entry ∈ R /\ folderUri entry = Some u /\ h = normalize entry u /\
        exists term, term ∈ T /\ term_hits (label entry) u term.
Proof.
  rewrite match_loop_omap. simpl. rewrite list_elem_of_omap. split.
  - intros (entry & Hin & Hm). apply matched_iff in Hm as (u & ? & ? & ?).
    by exists entry, u.
  - intros (entry & u & Hin & Hu & Hh & Hhit).
    exists entry. split; [done|]. apply matched_iff. by exists u.
Qed.

(** X6. Terms are alternatives: if every term of [T] is also a term of
    [T'], the matches for [T] are a subsequence of the matches for [T'].
    Adding a term to a search can only add results, and neither the order
    of the terms nor a repeated term changes the result. *)
Theorem X6_more_terms_more_matches
    (T T' : list string) (R : list RawRecord)
    (Hsub : forall term, term ∈ T -> term ∈ T') :
  sublist (match_loop T R []) (match_loop T' R []) /\
  ((forall term, term ∈ T' -> term ∈ T) ->
   match_loop T R [] = match_loop T' R []).
Proof.
  assert (Hmono : forall A B : list string,
             (forall term, term ∈ A -> term ∈ B) ->
             sublist (match_loop A R []) (match_loop B R [])).
  { intros A B HAB. rewrite !match_loop_omap. simpl.
    apply omap_sublist_mono. intros entry h Hm.
    apply matched_iff in Hm as (u & Hu & Hh & term & Hin & Hhit).
    apply matched_iff. exists u. split; [done|]. split; [done|].
    exists term. split; [by apply HAB | done]. }
  split; [by apply Hmono|].
  intros Hsup. apply (anti_symm sublist); by apply Hmono.
Qed.

Lemma X6_more_terms_witness :
  (forall term, term ∈ ["proj"] -> term ∈ ["doc"; "proj"]) /\
  sublist
    (match_loop ["proj"]
       [folder "/home/u/proj" None; folder "/home/u/docs" None] [])
    (match_loop ["doc"; "proj"]
       [folder "/home/u/proj" None; folder "/home/u/docs" None] []).
Proof.
  assert (H : forall term, term ∈ ["proj"] -> term ∈ ["doc"; "proj"]).
  { intros term ->%list_elem_of_singleton. right. left. }
  split; [exact H|].
  exact (proj1 (X6_more_terms_more_matches ["proj"] ["doc"; "proj"]
           [folder "/home/u/proj" None; folder "/home/u/docs" None] H)).
Defined.

Lemma match_loop_narrow (T T' : list string) (R : list RawRecord) :
  (forall term', term' ∈ T' ->
     exists term, term ∈ T /\ occurs_in term term') ->
  sublist (match_loop T' R []) (match_loop T R []).
Proof.
  intros Hext. rewrite !match_loop_omap. simpl.
  apply omap_sublist_mono. intros entry h Hm.
  apply matched_iff in Hm as (u & Hu & Hh & term' & Hin & Hhit).
  apply matched_iff. exists u. split; [done|]. split; [done|].
  destruct (Hext term' Hin) as (term & HinT & Hocc).
  exists term. split; [done|].
  destruct Hhit as [(l & Hl & Ho)|Ho].
  - left. exists l. split; [done|]. by eapply occurs_in_trans.
  - right. by eapply occurs_in_trans.
Qed.

(** X7. Typing on narrows: if every term of [T'] contains some term of
    [T] as a substring (each new term extends an old one), the matches
    for [T'] are a subsequence of the matches for [T], and so are their
    identifiers. *)
Theorem X7_longer_terms_fewer_matches
    (T T' : list string) (R : list RawRecord)
    (Hext : forall term', term' ∈ T' ->
              exists term, term ∈ T /\ occurs_in term term') :
  sublist (match_loop T' R []) (match_loop T R []) /\
  sublist (map uri (match_loop T' R [])) (map uri (match_loop T R [])).
Proof.
  split; [|apply (fmap_sublist uri)]; by apply match_loop_narrow.
Qed.

Lemma X7_longer_terms_witness :
  (forall term', term' ∈ ["proj"] ->
     exists term, term ∈ ["pro"] /\ occurs_in term term') /\
  sublist
    (match_loop ["proj"]
       [folder "/home/u/proj" None; folder "/home/u/prose" None] [])
    (match_loop ["pro"]
       [folder "/home/u/proj" None; folder "/home/u/prose" None] []).
Proof.
  assert (H : forall term', term' ∈ ["proj"] ->
                exists term, term ∈ ["pro"] /\ occurs_in term term').
  { intros term' ->%list_elem_of_singleton. exists "pro".
    split; [by left|]. by exists "", "j". }
  split; [exact H|].
  exact (proj1 (X7_longer_terms_fewer_matches ["pro"] ["proj"]
           [folder "/home/u/proj" None; folder "/home/u/prose" None] H)).
Defined.

(** X8. The empty string is a term that hits everything: when it is
    among the terms, the matching loop returns every record that carries
    a [folderUri], normalized, in order. *)
Theorem X8_empty_string_term_matches_every_folder
    (T : list string) (R : list RawRecord)
    (Hempty : "" ∈ T) :
  match_loop T R [] = all_folder_entries R.
Proof.
  rewrite match_loop_omap. simpl. unfold all_folder_entries.
  induction R as [|entry R IH]; [done|].
  assert (Hm : matched T entry = normalize entry <$> folderUri entry).
  { destruct (folderUri entry) as [u|] eqn:Hu; simpl.
    - apply matched_iff. exists u. split; [done|]. split; [done|].
      exists "". split; [done|]. right. apply occurs_in_empty.
    - unfold matched. by rewrite Hu. }
  simpl. rewrite Hm.
  destruct (normalize entry <$> folderUri entry); [f_equal|]; exact IH.
Qed.

Lemma X8_empty_string_term_witness :
  "" ∈ [""] /\
  match_loop [""] [folder "/home/u/proj" (Some "Proj"); mkRawRecord None None None] []
  = [mkHistoryEntry "/home/u/proj" "Proj" "local" "local"].
Proof.
  split; [by left|].
  apply (X8_empty_string_term_matches_every_folder [""]
           [folder "/home/u/proj" (Some "Proj"); mkRawRecord None None None]).
  by left.
Defined.

(** ** The shape of cached entries *)

Lemma normalize_ok (entry : RawRecord) (u : string) :
  entry_ok (normalize entry u).
Proof.
  unfold entry_ok, normalize. simpl.
  destruct (remoteAuthority entry) as [[|a ra]|]; simpl;
    (split; [done|]); (split; [by auto|]); (split; [done|]);
    destruct (label entry) as [[|b l]|]; simpl; done.
Qed.

Lemma match_loop_ok (T : list string) (R : list RawRecord)
    (cache : list HistoryEntry) :
  Forall entry_ok cache -> Forall entry_ok (match_loop T R cache).
Proof.
  intros Hc. rewrite match_loop_omap. apply Forall_app. split; [done|].
  apply Forall_forall. intros h (entry & _ & Hm)%list_elem_of_omap.
  apply matched_normalize in Hm. rewrite Hm. apply normalize_ok.
Qed.

(** X9. An invariant of the cache: if every cached entry has a
    non-empty [remote], a [remoteType] that is "remote" or "local",
    "local" as its remote whenever its type is "local", and a title that
    is empty only when its URI is, then the same holds after any initial
    search, whatever the store, the terms and the cancellation. *)
Theorem X9_cache_entries_stay_well_formed
    (T : list string) (token : Gio.Cancellable) (hc : bool) (w : World)
    (Hinv : Forall entry_ok (historyEntries w)) :
  Forall entry_ok (historyEntries (fst (getInitialResultSet T token hc w))).
Proof.
  rewrite getInitialResultSet_cache.
  destruct (opens (store w)) eqn:Hopen.
  - rewrite _getHistoryEntries_cache_opens by done.
    apply match_loop_ok. constructor.
  - by rewrite (proj1 (_getHistoryEntries_cache_unavailable T w Hopen)).
Qed.

Lemma X9_cache_entries_witness :
  Forall entry_ok (historyEntries
     (fresh_world (readable_store
        [mkRawRecord (Some "/home/u/proj") (Some "") (Some "")] []))) /\
  Forall entry_ok
    (historyEntries
       (fst (getInitialResultSet ["proj"] sample_token false
               (fresh_world (readable_store
                  [mkRawRecord (Some "/home/u/proj") (Some "") (Some "")] []))))).
Proof.
  assert (H : Forall entry_ok (historyEntries
     (fresh_world (readable_store
        [mkRawRecord (Some "/home/u/proj") (Some "") (Some "")] []))))
    by constructor.
  split; [exact H|].
  exact (X9_cache_entries_stay_well_formed ["proj"] sample_token false _ H).
Defined.

(** ** How a search settles *)

Lemma getInitialResultSet_world T token hc w :
  fst (getInitialResultSet T token hc w)
  = match _getHistoryEntries T w with
    | (w', Js.Normal _) => w'
    | (w', Js.Threw e) => console_error e w'
    end.
Proof.
  unfold getInitialResultSet.
  destruct (connect _ _) as [op cancelledId].
  destruct (_getHistoryEntries T w) as [w' [entries|e]]; done.
Qed.

(** X10. An initial search always settles, and in one of two ways only:
    it resolves with a list of identifiers when the token was neither
    cancelled at call time nor cancelled before the reaction ran, and it
    is rejected with "Search Cancelled" otherwise.  No failure of the
    store ever rejects the promise. *)
Theorem X10_initial_search_always_settles
    (T : list string) (token : Gio.Cancellable) (hc : bool) (w : World) :
  (exists ids,
     promise (snd (getInitialResultSet T token hc w)) = Js.Fulfilled ids /\
     Gio.is_cancelled token = false /\ hc = false) \/
  (promise (snd (getInitialResultSet T token hc w))
     = Js.Rejected (Js.MkError "Search Cancelled") /\
   (Gio.is_cancelled token = true \/ hc = true)).
Proof.
  destruct (Gio.is_cancelled token) eqn:Hc.
  - right. split; [by apply getInitialResultSet_already_cancelled | by left].
  - destruct hc.
    + right. split; [by apply getInitialResultSet_cancelled_meanwhile | by right].
    + left. eexists. split; [by apply getInitialResultSet_not_cancelled | done].
Qed.

Lemma _getHistoryEntries_unreadable T w :
  unreadable (store w) ->
  match _getHistoryEntries T w with
  | (w', Js.Normal entries) =>
      entries = [] /\
      exists es, errorLog w' = errorLog w ++ es /\ length es <= 1
  | (w', Js.Threw _) => errorLog w' = errorLog w
  end.
Proof.
  destruct w as [cache [o s r] evs log].
  unfold unreadable, _getHistoryEntries, Gda.open, Gda.execute_select_command.
  simpl. intros Hbad.
  destruct o; simpl.
  - destruct s; simpl; [|done].
    destruct r as [|[| |R] more]; simpl; try done.
    + split; [done|]. exists []. split; [by rewrite app_nil_r | simpl; lia].
    + destruct Hbad as [|[|]]; done.
  - split; [done|]. eexists [_]. split; [done|]. simpl. lia.
Qed.

(** X11. A store the read gets nothing from -- the connection does not
    open, the select fails, there is no row, or the row is not the
    history blob -- makes an uncancelled initial search resolve with the
    empty list; the failure reaches [console.error] at most once and
    never the caller. *)
Theorem X11_unreadable_store_resolves_empty
    (T : list string) (token : Gio.Cancellable) (w : World)
    (Hlive : Gio.is_cancelled token = false)
    (Hbad : unreadable (store w)) :
  promise (snd (getInitialResultSet T token false w)) = Js.Fulfilled [] /\
  exists es,
    errorLog (fst (getInitialResultSet T token false w)) = errorLog w ++ es /\
    length es <= 1.
Proof.
  rewrite getInitialResultSet_not_cancelled, getInitialResultSet_world by done.
  pose proof (_getHistoryEntries_unreadable T w Hbad) as H.
  destruct (_getHistoryEntries T w) as [w' [entries|e]]; simpl.
  - destruct H as [-> Hlog]. done.
  - split; [done|]. exists [e]. rewrite H. split; [done|]. simpl. lia.
Qed.

Lemma X11_unreadable_store_witness :
  Gio.is_cancelled sample_token = false /\
  unreadable (store (fresh_world (mkStore false false []))) /\
  promise (snd (getInitialResultSet ["proj"] sample_token false
                  (fresh_world (mkStore false false []))))
  = Js.Fulfilled [].
Proof.
  assert (Hbad : unreadable (store (fresh_world (mkStore false false []))))
    by (by left).
  split; [reflexivity|]. split; [exact Hbad|].
  exact (proj1 (X11_unreadable_store_resolves_empty ["proj"] sample_token
                  (fresh_world (mkStore false false [])) eq_refl Hbad)).
Defined.

Lemma getInitialResultSet_readable T R more token cache evs log :
  Gio.is_cancelled token = false ->
  fst (getInitialResultSet T token false
         (mkWorld cache (readable_store R more) evs log))
  = mkWorld (omap (matched T) R) (readable_store R more)
            (evs ++ [ConnOpen; Select; ConnClose]) log /\
  promise (snd (getInitialResultSet T token false
                  (mkWorld cache (readable_store R more) evs log)))
  = Js.Fulfilled (matched_uris T R).
Proof.
  intros Hlive.
  rewrite getInitialResultSet_world, getInitialResultSet_not_cancelled by done.
  rewrite _getHistoryEntries_readable. simpl.
  by rewrite map_uri_omap_matched.
Qed.

Lemma filter_all {A} (P : A -> Prop) `{forall x, Decision (P x)} (l : list A) :
  Forall P l -> filter P l = l.
Proof.
  induction 1 as [|x l Hx _ IH]; [done|].
  rewrite filter_cons_True by done. by f_equal.
Qed.

(** X12. Search, then resolve: on a store that holds the history blob,
    an uncancelled initial search resolves with the folder URIs of the
    matching records in store order, and asking for the metadata of
    exactly these identifiers afterwards yields one meta for each of
    them, in the same order -- none is missing from the cache. *)
Theorem X12_search_results_all_resolve
    (T : list string) (R : list RawRecord) (more : list RowValue)
    (token token' : Gio.Cancellable) (scaleFactor : Z)
    (cache : list HistoryEntry) (evs : list DbEvent) (log : list Js.Error)
    (Hlive : Gio.is_cancelled token = false)
    (Hlive' : Gio.is_cancelled token' = false) :
  let out := getInitialResultSet T token false
               (mkWorld cache (readable_store R more) evs log) in
  promise (snd out) = Js.Fulfilled (matched_uris T R) /\
  exists metas,
    promise (getResultMetas scaleFactor (matched_uris T R) token' (fst out))
      = Js.Fulfilled metas /\
    map id metas = matched_uris T R.
Proof.
  simpl.
  destruct (getInitialResultSet_readable T R more token cache evs log Hlive)
    as [-> ->].
  split; [done|]. eexists. split; [by apply getResultMetas_not_cancelled|].
  simpl. rewrite omap_meta_ids, map_uri_omap_matched.
  apply filter_all. by apply Forall_forall.
Qed.

Lemma X12_search_results_witness :
  Gio.is_cancelled sample_token = false /\
  promise (snd (getInitialResultSet ["proj"] sample_token false
     (fresh_world (readable_store
        [folder "/home/u/proj" (Some "Proj"); folder "/tmp/x" None] []))))
  = Js.Fulfilled ["/home/u/proj"].
Proof.
  split; [reflexivity|].
  exact (proj1 (X12_search_results_all_resolve ["proj"]
     [folder "/home/u/proj" (Some "Proj"); folder "/tmp/x" None] []
     sample_token sample_token 1 [] [] [] eq_refl eq_refl)).
Defined.

(** ** The cancellation handler is always removed *)

Lemma List_filter_all (x : nat) (ids : list nat) :
  Forall (fun i => i <> x) ids ->
  List.filter (fun i => negb (Nat.eqb i x)) ids = ids.
Proof.
  induction 1 as [|i ids Hi _ IH]; simpl; [done|].
  apply Nat.eqb_neq in Hi as ->. simpl. by f_equal.
Qed.

Lemma disconnect_connected (ids : list nat) :
  List.filter (fun i => negb (Nat.eqb i (S (max_list ids))))
              (ids ++ [S (max_list ids)]) = ids.
Proof.
  rewrite List.filter_app, List_filter_all by apply fresh_handler_id.
  simpl. rewrite Nat.eqb_refl. simpl. apply app_nil_r.
Qed.

Lemma positive_ids_not_zero (ids : list nat) :
  0 ∉ ids -> Forall (fun i => i <> 0) ids.
Proof.
  intros H0. apply Forall_forall. intros i Hi ->. done.
Qed.

(** X13. No listener is left behind.  Given a token whose handler ids
    are positive, as GLib's are, the handlers connected to the token are
    the same after [getInitialResultSet] has settled as before the call,
    whether the search resolved or was cancelled, and the same holds for
    [getResultMetas]; the token is cancelled afterwards only if it was
    before or the host cancelled it. *)
Theorem X13_cancellation_handler_is_disconnected
    (T : list string) (results : list string) (scaleFactor : Z)
    (token : Gio.Cancellable) (hc : bool) (w : World)
    (Hpos : 0 ∉ Gio.handler_ids token) :
  cancellable (snd (getInitialResultSet T token hc w))
    = Gio.mkCancellable (Gio.is_cancelled token || hc) (Gio.handler_ids token) /\
  cancellable (getResultMetas scaleFactor results token w)
    = Gio.mkCancellable (Gio.is_cancelled token) (Gio.handler_ids token).
Proof.
  apply positive_ids_not_zero in Hpos.
  destruct token as [c ids]. simpl in *.
  unfold getInitialResultSet, getResultMetas, connect, new_promise. simpl.
  destruct c; simpl.
  - split.
    + destruct (_getHistoryEntries T w) as [w' [entries|e]];
        destruct hc; simpl; by rewrite List_filter_all.
    + by rewrite List_filter_all.
  - split.
    + destruct (_getHistoryEntries T w) as [w' [entries|e]];
        destruct hc; simpl; by rewrite disconnect_connected.
    + by rewrite disconnect_connected.
Qed.

Lemma X13_cancellation_handler_witness :
  (0 ∉ Gio.handler_ids (Gio.mkCancellable false [3; 7])) /\
  cancellable (snd (getInitialResultSet ["proj"]
                      (Gio.mkCancellable false [3; 7]) true
                      (fresh_world (readable_store [] []))))
  = Gio.mkCancellable true [3; 7].
Proof.
  assert (H : 0 ∉ Gio.handler_ids (Gio.mkCancellable false [3; 7])).
  { simpl. intros Hin. apply elem_of_cons in Hin as [?|Hin]; [done|].
    apply elem_of_cons in Hin as [?|Hin]; [done|]. by apply elem_of_nil in Hin. }
  split; [exact H|].
  exact (proj1 (X13_cancellation_handler_is_disconnected ["proj"] [] 1
                  (Gio.mkCancellable false [3; 7]) true
                  (fresh_world (readable_store [] [])) H)).
Defined.

(** X14. Metadata resolution on a token that is already cancelled
    delivers nothing: the promise is rejected with "Operation Cancelled",
    whatever was requested and whatever the cache holds. *)
Theorem X14_resolution_on_cancelled_token_rejects
    (scaleFactor : Z) (results : list string) (token : Gio.Cancellable)
    (w : World)
    (Hcancelled : Gio.is_cancelled token = true) :
  promise (getResultMetas scaleFactor results token w)
  = Js.Rejected (Js.MkError "Operation Cancelled").
Proof. by apply getResultMetas_cancelled. Qed.

Lemma X14_resolution_on_cancelled_token_witness :
  Gio.is_cancelled cancelled_token = true /\
  promise (getResultMetas 1 ["/home/u/proj"] cancelled_token
             (mkWorld [mkHistoryEntry "/home/u/proj" "Proj" "local" "local"]
                      (readable_store [] []) [] []))
  = Js.Rejected (Js.MkError "Operation Cancelled").
Proof.
  split; [reflexivity|].
  exact (X14_resolution_on_cancelled_token_rejects 1 ["/home/u/proj"]
           cancelled_token
           (mkWorld [mkHistoryEntry "/home/u/proj" "Proj" "local" "local"]
                    (readable_store [] []) [] [])
           eq_refl).
Defined.

(** ** Connection calls of a search *)

(** X15. Every initial search, cancelled or not, makes exactly one
    attempt to open the store and keeps the earlier calls in its record:
    when the connection does not open nothing else is called, and when it
    opens there is exactly one select, followed by at most one close. *)
Theorem X15_one_connection_attempt_per_search
    (T : list string) (token : Gio.Cancellable) (hc : bool) (w : World) :
  exists evs,
    dbEvents (fst (getInitialResultSet T token hc w)) = dbEvents w ++ evs /\
    calls_of_one_read (store w) evs /\
    count_event ConnOpen evs + count_event ConnOpenFailed evs = 1 /\
    count_event ConnClose evs <= count_event ConnOpen evs.
Proof.
  rewrite getInitialResultSet_dbEvents.
  destruct w as [cache [o s r] evs0 log].
  unfold calls_of_one_read, _getHistoryEntries, Gda.open,
    Gda.execute_select_command. simpl.
  destruct o; simpl.
  - destruct s; simpl.
    + destruct r as [|[| |R] more]; simpl.
      * exists [ConnOpen; Select]. rewrite <- !app_assoc.
        split; [done|]. split; [by left|]. split; [reflexivity | vm_compute; lia].
      * exists [ConnOpen; Select]. rewrite <- !app_assoc.
        split; [done|]. split; [by left|]. split; [reflexivity | vm_compute; lia].
      * exists [ConnOpen; Select; ConnClose]. rewrite <- !app_assoc.
        split; [done|]. split; [by right|]. split; [reflexivity | vm_compute; lia].
      * exists [ConnOpen; Select; ConnClose]. rewrite <- !app_assoc.
        split; [done|]. split; [by right|]. split; [reflexivity | vm_compute; lia].
    + exists [ConnOpen; Select]. rewrite <- !app_assoc.
      split; [done|]. split; [by left|]. split; [reflexivity | vm_compute; lia].
  - exists [ConnOpenFailed]. split; [done|]. split; [done|]. split; [reflexivity | vm_compute; lia].
Qed.

(** ** Activation *)

(** X16. Activating a result hands exactly one more command line to the
    spawner and keeps the earlier ones; the search terms play no part,
    and two activations from the same state give the same command lines
    exactly when the two identifiers are equal. *)
Theorem X16_activation_spawns_one_command_per_identifier
    (r1 r2 : string) (t1 t2 : list string) (spawned : list string) :
  length (activateResult r1 t1 spawned) = S (length spawned) /\
  spawned `prefix_of` activateResult r1 t1 spawned /\
  activateResult r1 t1 spawned = activateResult r1 t2 spawned /\
  (activateResult r1 t1 spawned = activateResult r2 t2 spawned <-> r1 = r2).
Proof.
  unfold activateResult.
  split; [rewrite length_app; simpl; lia|].
  split; [by eexists|]. split; [done|].
  split; [|by intros ->].
  intros H%app_inv_head. injection H as H. by apply (inj _) in H.
Qed.

(** ** Refining a search *)

(** X17. Refining narrows.  On a store that holds the history blob, let
    an uncancelled initial search for [T] resolve with [ids]; a subsearch
    on a live token for terms [T'] each of which contains some term of
    [T] resolves with a subsequence of [ids], whatever previous result
    list it is handed. *)
Theorem X17_subsearch_with_extended_terms_narrows
    (T T' : list string) (R : list RawRecord) (more : list RowValue)
    (token token' : Gio.Cancellable) (previous : list string)
    (cache : list HistoryEntry) (evs : list DbEvent) (log : list Js.Error)
    (Hlive : Gio.is_cancelled token = false)
    (Hlive' : Gio.is_cancelled token' = false)
    (Hext : forall term', term' ∈ T' ->
              exists term, term ∈ T /\ occurs_in term term') :
  let first := getInitialResultSet T token false
                 (mkWorld cache (readable_store R more) evs log) in
  exists ids ids' op',
    promise (snd first) = Js.Fulfilled ids /\
    snd (getSubsearchResultSet previous T' token' false (fst first))
      = Js.Normal op' /\
    promise op' = Js.Fulfilled ids' /\
    sublist ids' ids.
Proof.
  simpl.
  destruct (getInitialResultSet_readable T R more token cache evs log Hlive)
    as [-> ->].
  unfold getSubsearchResultSet. rewrite Hlive'.
  destruct (getInitialResultSet_readable T' R more token'
              (omap (matched T) R) (evs ++ [ConnOpen; Select; ConnClose]) log
              Hlive') as [_ Hp].
  destruct (getInitialResultSet T' token' false _) as [w2 op2]. simpl in Hp.
  exists (matched_uris T R), (matched_uris T' R), op2.
  split; [done|]. split; [done|]. split; [done|].
  rewrite <- !map_uri_omap_matched.
  apply (fmap_sublist uri).
  pose proof (match_loop_narrow T T' R Hext) as Hn.
  by rewrite !match_loop_omap in Hn.
Qed.

Lemma X17_subsearch_narrows_witness :
  Gio.is_cancelled sample_token = false /\
  (forall term', term' ∈ ["proj"] ->
     exists term, term ∈ ["pro"] /\ occurs_in term term') /\
  exists ids ids' op',
    promise (snd (getInitialResultSet ["pro"] sample_token false
       (fresh_world (readable_store
          [folder "/home/u/proj" None; folder "/home/u/prose" None] []))))
      = Js.Fulfilled ids /\
    snd (getSubsearchResultSet [] ["proj"] sample_token false
           (fst (getInitialResultSet ["pro"] sample_token false
              (fresh_world (readable_store
                 [folder "/home/u/proj" None; folder "/home/u/prose" None] [])))))
      = Js.Normal op' /\
    promise op' = Js.Fulfilled ids' /\
    sublist ids' ids.
Proof.
  assert (H : forall term', term' ∈ ["proj"] ->
                exists term, term ∈ ["pro"] /\ occurs_in term term').
  { intros term' ->%list_elem_of_singleton. exists "pro".
    split; [by left|]. by exists "", "j". }
  split; [reflexivity|]. split; [exact H|].
  exact (X17_subsearch_with_extended_terms_narrows ["pro"] ["proj"]
           [folder "/home/u/proj" None; folder "/home/u/prose" None] []
           sample_token sample_token [] [] [] [] eq_refl eq_refl H).
Defined.
